(** * The in-memory transaction chain of [iko] (chain.go)

    A shallow embedding of [MemoryChain], the reference implementation of
    the [ChainDB] interface, and the properties of its operations.

    The chain keeps its transactions in a Go slice [txs] and indexes them
    in the map [byHash], whose values are _addresses of slice elements_
    ([&c.txs[len(c.txs)-1]]).  Appending to a slice either writes into the
    spare capacity of its backing array or moves the elements to a new
    array; addresses taken earlier keep pointing into the old array.  The
    model therefore has the backing arrays as an explicit store and the
    index as a map from hashes to (array, offset) pairs.

    The reader/writer lock is not modelled: every operation below is one
    critical section (or, for [GetTxsOfSeqRange], two read sections with no
    writer in between), and the development is about sequential runs. *)

From stdpp Require Import gmap list strings.
From Stdlib Require Import ZArith Lia Ascii.

Local Open Scope Z_scope.

(** ** Machine integers

    Go's [uint64] arithmetic wraps modulo 2^64; [int] is taken to be the
    64-bit signed integer of the platforms the service is built for. *)

Definition uint64 (z : Z) : Z := z mod 2 ^ 64.
Definition max_int : Z := 2 ^ 63 - 1.

(** ** Slices and element addresses *)

(** A slice header: the backing array (by its number in the store), the
    length and the capacity.  The nil slice has length and capacity zero
    and its array is never looked at. *)
Record slice := Slice { s_arr : nat; s_len : nat; s_cap : nat }.

Definition nil_slice : slice := Slice 0 0 0.

(** Go's [len(s)], an [int]. *)
Definition len (s : slice) : Z := Z.of_nat (s_len s).

(** The address of an array element, [&a[i]]. *)
Record ptr := Ptr { p_arr : nat; p_idx : nat }.

(** ** What the chain takes from outside

    [Transaction], [TxHash] and the method [Transaction.Hash] are declared
    in a file of the package that is not at hand, so they are parameters
    of the development, with [zero_tx] for the zero value [Transaction{}].
    [TxHash] is a map key.  Two things are the runtime's: [slack], its
    growth policy (how much spare room [append] leaves when it has to move
    a slice of the given length to a new array), and [max_chan], the
    largest buffer with which [make] gives a channel of transaction
    addresses (a larger one is out of range for [make] or more than the
    memory there is; it is an [int] at most). *)
Class Env := {
  Transaction : Type;
  TxHash : Type;
  TxHash_eq_dec :: EqDecision TxHash;
  TxHash_countable :: Countable TxHash;
  Hash : Transaction → TxHash;
  zero_tx : Transaction;
  slack : nat → nat;
  max_chan : Z
}.

Section Chain.

Context `{Env}.

(** The errors the chain makes, and the ones it passes on from a checker. *)
Inductive error :=
  | ErrNoTransactions                 (* "no transactions" *)
  | ErrTxOfHash (hash : TxHash)       (* "tx of hash '%s' does not exist" *)
  | ErrBlockOfSeq (seq : Z)           (* "block of sequence '%d' does not exist" *)
  | ErrInvalidPageSize (pageSize : Z) (* "Invalid pageSize: %d" *)
  | ErrInvalidStartSeq (startSeq : Z) (* "Invalid startSeq: %d" *)
  | ErrCheck (msg : string).          (* whatever a TxChecker returns *)

(** [type TxChecker func(tx *Transaction) error].  A value of the type is
    nil ([None]) or a function.  The function is handed the address of
    [AddTx]'s own copy of the transaction: it may write the copy, and it
    panics ([None]) or returns the copy as it left it with an error or
    with nil (the inner [None]).  It is taken not to change the chain it
    checks for. *)
Definition TxChecker := option (Transaction → option (Transaction * option error)).

(** [check(&tx)]: calling a nil function panics. *)
Definition run_check (check : TxChecker) (tx : Transaction)
  : option (Transaction * option error) :=
  f ← check; f tx.

(** The state of a [MemoryChain]: the backing arrays [append] has
    allocated for [txs] so far, the slice [txs], the index [byHash], the
    buffer size of [txChan], and the transactions of the goroutines that
    [AddTx] started to send on [txChan]. *)
Record MemoryChain := {
  arrays : list (list Transaction);
  txs : slice;
  byHash : gmap TxHash ptr;
  txChan : Z;
  sending : list Transaction
}.

(** Operations return [option]: [None] is a run-time panic (an index out
    of range, a slice too long for [int], a channel size out of range, a
    call of a nil function, a panic of the function called). *)

(** [*p] *)
Definition deref (mem : list (list Transaction)) (p : ptr) : option Transaction :=
  mem !! p_arr p ≫= (.!! p_idx p).

(** [s[i]], with Go's bounds check, and [c.txs[i]]. *)
Definition slice_at (mem : list (list Transaction)) (s : slice) (i : Z)
  : option Transaction :=
  if bool_decide (0 ≤ i < len s) then deref mem (Ptr (s_arr s) (Z.to_nat i))
  else None.

Definition index (c : MemoryChain) (i : Z) : option Transaction :=
  slice_at (arrays c) (txs c) i.

(** [append(s, tx)]: in place when there is room, else into a new array
    that receives the old elements, [tx] and the spare cells. *)
Definition append (mem : list (list Transaction)) (s : slice) (tx : Transaction)
  : option (list (list Transaction) * slice) :=
  if bool_decide (max_int < len s + 1) then None
  else if bool_decide (s_len s < s_cap s)%nat then
    Some (alter (<[s_len s := tx]>) (s_arr s) mem,
          Slice (s_arr s) (S (s_len s)) (s_cap s))
  else
    let old := take (s_len s) (default [] (mem !! s_arr s)) in
    let cells := old ++ tx :: replicate (slack (s_len s)) zero_tx in
    Some (mem ++ [cells], Slice (length mem) (S (s_len s)) (length cells)).

(** [make(chan *Transaction, bufferSize)] panics for a negative size and
    for one beyond what the runtime provides. *)
Definition NewMemoryChain (bufferSize : Z) : option MemoryChain :=
  if bool_decide (bufferSize < 0 ∨ max_chan < bufferSize) then None
  else Some {| arrays := []; txs := nil_slice; byHash := ∅;
               txChan := bufferSize; sending := [] |}.

Definition Head (c : MemoryChain) : option (Transaction * option error) :=
  if bool_decide (len (txs c) = 0) then Some (zero_tx, Some ErrNoTransactions)
  else tx ← index c (len (txs c) - 1); Some (tx, None).

Definition HeadSeq (c : MemoryChain) : Z :=
  uint64 (uint64 (len (txs c)) - 1).

Definition Len (c : MemoryChain) : Z :=
  uint64 (len (txs c)).

Definition AddTx (tx : Transaction) (check : TxChecker) (c : MemoryChain)
  : option (MemoryChain * option error) :=
  '(tx, e) ← run_check check tx;
  match e with
  | Some e => Some (c, Some e)
  | None =>
      '(mem, s) ← append (arrays c) (txs c) tx;
      _ ← slice_at mem s (len s - 1);
      Some ({| arrays := mem;
               txs := s;
               byHash := <[Hash tx := Ptr (s_arr s) (Z.to_nat (len s - 1))]> (byHash c);
               txChan := txChan c;
               sending := sending c ++ [tx] |}, None)
  end.

Definition GetTxOfHash (hash : TxHash) (c : MemoryChain)
  : option (Transaction * option error) :=
  match byHash c !! hash with
  | None => Some (zero_tx, Some (ErrTxOfHash hash))
  | Some p => tx ← deref (arrays c) p; Some (tx, None)
  end.

Definition GetTxOfSeq (seq : Z) (c : MemoryChain)
  : option (Transaction * option error) :=
  if bool_decide (uint64 (len (txs c)) ≤ seq) then Some (zero_tx, Some (ErrBlockOfSeq seq))
  else tx ← index c seq; Some (tx, None).

(** The loop of [GetTxsOfSeqRange].  [fuel] bounds the number of rounds;
    [GetTxsOfSeqRange] passes as many as there are sequences from
    [startSeq] up to [len], which [range_loop_run] shows to be enough. *)
Fixpoint range_loop (fuel : nat) (c : MemoryChain) (len startSeq pageSize : Z)
    (currentSeq : Z) (result : list Transaction) : option (list Transaction) :=
  if bool_decide (currentSeq < len) && bool_decide (uint64 (currentSeq - startSeq) < pageSize)
  then match fuel with
       | O => None
       | S fuel' =>
           tx ← index c currentSeq;
           range_loop fuel' c len startSeq pageSize (uint64 (currentSeq + 1)) (result ++ [tx])
       end
  else Some result.

Definition GetTxsOfSeqRange (startSeq pageSize : Z) (c : MemoryChain)
  : option (list Transaction * option error) :=
  if bool_decide (pageSize = 0) then Some ([], Some (ErrInvalidPageSize pageSize))
  else
    let len := Len c in
    if bool_decide (len ≤ startSeq) then Some ([], Some (ErrInvalidStartSeq startSeq))
    else
      result ← range_loop (Z.to_nat (len - startSeq)) c len startSeq pageSize startSeq [];
      Some (result, None).

(** ** The representation invariant *)

(** The transactions of the chain, in sequence order: the first [len]
    cells of the backing array of [txs]. *)
Definition elems (c : MemoryChain) : list Transaction :=
  take (s_len (txs c)) (default [] (arrays c !! s_arr (txs c))).

(** The last transaction of a list that has the given hash. *)
Definition last_with_hash (h : TxHash) (l : list Transaction) : option Transaction :=
  last (filter (λ tx, Hash tx = h) l).

(** States of a chain made by [NewMemoryChain] and grown by [AddTx]. *)
Inductive reachable : MemoryChain → Prop :=
  | reach_new bufferSize c :
      NewMemoryChain bufferSize = Some c → reachable c
  | reach_add c tx check c' r :
      reachable c → AddTx tx check c = Some (c', r) → reachable c'.

(** What holds of every such state: the slice lies within its backing
    array and within [int]; every address in the index points at a live
    cell, below the length when it points into the current array; and
    following the index gives the last admitted transaction of a hash. *)
Record chain_inv (c : MemoryChain) : Prop := {
  inv_cap : (s_len (txs c) ≤ s_cap (txs c))%nat;
  inv_backed : length (default [] (arrays c !! s_arr (txs c))) = s_cap (txs c);
  inv_int : len (txs c) ≤ max_int;
  inv_ptr : ∀ h p, byHash c !! h = Some p →
      is_Some (deref (arrays c) p) ∧
      (p_arr p = s_arr (txs c) → (p_idx p < s_len (txs c))%nat);
  inv_index : ∀ h, byHash c !! h ≫= deref (arrays c) = last_with_hash h (elems c)
}.

(** The checker that lets everything pass and writes nothing. *)
Definition pass : TxChecker := Some (λ tx, Some (tx, None)).

(** What a call of the checker lets through: the transaction as the
    checker left it, when it returned nil. *)
Definition let_through (check : TxChecker) (tx : Transaction) : option Transaction :=
  match run_check check tx with
  | Some (tx', None) => Some tx'
  | _ => None
  end.

(** Chains for examples: [grow c l] admits the transactions of [l] one
    after the other with the checker [pass]. *)
Definition empty_chain (bufferSize : Z) : MemoryChain :=
  {| arrays := []; txs := nil_slice; byHash := ∅;
     txChan := bufferSize; sending := [] |}.

Definition grow (c : MemoryChain) (l : list Transaction) : MemoryChain :=
  foldl (λ c tx, match AddTx tx pass c with
                 | Some (c', _) => c'
                 | None => c
                 end) c l.

(** A run of [AddTx] calls with one checker, one call for each transaction
    of a list in turn, whatever the calls return; a panic ends the run. *)
Fixpoint AddTxs (check : TxChecker) (l : list Transaction) (c : MemoryChain)
  : option MemoryChain :=
  match l with
  | [] => Some c
  | tx :: l' => '(c', _) ← AddTx tx check c; AddTxs check l' c'
  end.

End Chain.

(** ** Two small instances

    A transaction that names a kitty and a serial number, with a hash that
    covers its whole content ([content_env]) and with one that covers the
    kitty alone, so that distinct transactions can share a hash
    ([kitty_env]).  New arrays double the capacity, as Go's do for short
    slices, and the largest channel buffer is the one of a 64-bit Linux
    with memory to spare. *)
Record demo_tx := DemoTx { kitty : Z; serial : Z }.

Definition content_env : Env := {|
  Transaction := demo_tx;
  TxHash := Z * Z;
  Hash tx := (kitty tx, serial tx);
  zero_tx := DemoTx 0 0;
  slack := Nat.pred;
  max_chan := 2 ^ 45 - 12
|}.

Definition kitty_env : Env := {|
  Transaction := demo_tx;
  TxHash := Z;
  Hash := kitty;
  zero_tx := DemoTx 0 0;
  slack := Nat.pred;
  max_chan := 2 ^ 45 - 12
|}.

(** The chain of the service's test mode ([NewMemoryChain(10)]) after five
    admissions, for kitties 0 to 4. *)
Definition five_txs : list demo_tx :=
  [DemoTx 0 100; DemoTx 1 101; DemoTx 2 102; DemoTx 3 103; DemoTx 4 104].

Definition chain5 : @MemoryChain content_env :=
  @grow content_env (@empty_chain content_env 10) five_txs.

(** A chain that holds kitty 7 twice, with different serial numbers. *)
Definition chain_twice : @MemoryChain kitty_env :=
  @grow kitty_env (@empty_chain kitty_env 10) [DemoTx 7 1; DemoTx 8 2; DemoTx 7 3].

(** A checker that turns kitty 6 away. *)
Definition no_kitty_6 : @TxChecker content_env :=
  Some (λ tx, Some (tx, if bool_decide (kitty tx = 6)
                        then Some (@ErrCheck content_env "kitty 6") else None)).

(** A checker that rejects everything, one that writes the serial number
    999 into the transaction it is handed, and one that writes kitty 9. *)
Definition reject_all : @TxChecker content_env :=
  Some (λ tx, Some (tx, Some (@ErrCheck content_env "bad signature"))).

Definition restamp : @TxChecker content_env :=
  Some (λ tx, Some (DemoTx (kitty tx) 999, None)).

Definition rename_kitty : @TxChecker kitty_env :=
  Some (λ tx, Some (DemoTx 9 (serial tx), None)).

(** [chain5] after [AddTx] of kitty 5 with the checker that writes the
    serial number. *)
Definition chain6 : @MemoryChain content_env :=
  match @AddTx content_env (DemoTx 5 105) restamp chain5 with
  | Some (c', _) => c'
  | None => chain5
  end.

(** A chain with kitties 7 and 8, and what it is after [AddTx] of another
    transaction of kitty 7 with the checker that writes kitty 9. *)
Definition chain78 : @MemoryChain kitty_env :=
  @grow kitty_env (@empty_chain kitty_env 10) [DemoTx 7 1; DemoTx 8 2].

Definition chain789 : @MemoryChain kitty_env :=
  match @AddTx kitty_env (DemoTx 7 3) rename_kitty chain78 with
  | Some (c', _) => c'
  | None => chain78
  end.

(** ** The flag names of the command (cmd/iko/iko.go)

    [func Flag(flag string, short ...string) string]: the name under which
    a flag is declared, the long name alone or followed by the first of
    the short names. *)
Definition Flag (flag : string) (short : list string) : string :=
  match short with
  | [] => flag
  | s :: _ => (flag +:+ ", ") +:+ s
  end.

(** The characters of a string. *)
Fixpoint chars (s : string) : list Ascii.ascii :=
  match s with
  | EmptyString => []
  | String a s' => a :: chars s'
  end.

Section Properties.

Context `{Env}.

(** ** Auxiliary facts about the store *)

Lemma uint64_small z : 0 ≤ z < 2 ^ 64 → uint64 z = z.
Proof. intros Hz. unfold uint64. by rewrite Z.mod_small. Qed.

Lemma uint64_range z : 0 ≤ uint64 z < 2 ^ 64.
Proof. unfold uint64. apply Z.mod_pos_bound. lia. Qed.

Lemma deref_alter_ne mem f a p :
  p_arr p ≠ a → deref (alter f a mem) p = deref mem p.
Proof.
  intros Hne. unfold deref. by rewrite list_lookup_alter_ne.
Qed.

Lemma deref_alter_insert mem a n tx p :
  p_arr p = a → p_idx p ≠ n →
  deref (alter (<[n := tx]>) a mem) p = deref mem p.
Proof.
  intros <- Hne. unfold deref. rewrite list_lookup_alter_eq.
  destruct (mem !! p_arr p) as [cells|]; simpl; [|done].
  by rewrite list_lookup_insert_ne.
Qed.

Lemma deref_app mem new p :
  is_Some (deref mem p) → deref (mem ++ new) p = deref mem p.
Proof.
  unfold deref. intros [tx Htx].
  destruct (mem !! p_arr p) as [cells|] eqn:Hc; [|done].
  by rewrite (lookup_app_l_Some _ _ _ _ Hc).
Qed.

Lemma deref_lt mem p : is_Some (deref mem p) → (p_arr p < length mem)%nat.
Proof.
  unfold deref. intros [tx Htx].
  destruct (mem !! p_arr p) as [cells|] eqn:Hc; [|done].
  by eapply lookup_lt_Some.
Qed.

Lemma last_with_hash_snoc h l tx :
  last_with_hash h (l ++ [tx]) =
  if decide (Hash tx = h) then Some tx else last_with_hash h l.
Proof.
  unfold last_with_hash. rewrite filter_app, filter_cons, filter_nil.
  destruct (decide (Hash tx = h)).
  - by rewrite last_snoc.
  - by rewrite app_nil_r.
Qed.

(** Indexing the slice is looking up the list of its elements. *)
Lemma index_elems c i :
  index c i = if bool_decide (0 ≤ i < len (txs c)) then elems c !! Z.to_nat i else None.
Proof.
  unfold index, slice_at, elems, deref, len. case_bool_decide as Hi; [|done]. simpl.
  rewrite lookup_take_lt by lia.
  by destruct (arrays c !! s_arr (txs c)).
Qed.

Lemma elems_length c : chain_inv c → length (elems c) = s_len (txs c).
Proof.
  intros Hc. unfold elems. rewrite length_take.
  pose proof (inv_cap c Hc). pose proof (inv_backed c Hc). lia.
Qed.

Lemma Len_len c : chain_inv c → Len c = len (txs c).
Proof.
  intros Hc. unfold Len. apply uint64_small.
  pose proof (inv_int c Hc). unfold len, max_int in *. lia.
Qed.

(** ** [append] and the addresses taken before it *)

Lemma append_spec c tx mem s :
  chain_inv c → append (arrays c) (txs c) tx = Some (mem, s) →
  s_len s = S (s_len (txs c)) ∧
  (s_len s ≤ s_cap s)%nat ∧
  length (default [] (mem !! s_arr s)) = s_cap s ∧
  len s ≤ max_int ∧
  take (s_len s) (default [] (mem !! s_arr s)) = elems c ++ [tx] ∧
  (∀ h p, byHash c !! h = Some p →
     deref mem p = deref (arrays c) p ∧
     (p_arr p = s_arr s → (p_idx p < s_len (txs c))%nat)).
Proof.
  intros Hc. unfold append.
  pose proof (inv_cap c Hc) as Hcap. pose proof (inv_backed c Hc) as Hback.
  pose proof (elems_length c Hc) as Hlen.
  case_bool_decide as Hmax; [done|].
  case_bool_decide as Hroom; intros [= <- <-]; simpl.
  - (* in place *)
    destruct (arrays c !! s_arr (txs c)) as [cells|] eqn:Hcells;
      simpl in Hback; [|lia].
    rewrite list_lookup_alter_eq, Hcells. simpl.
    repeat split; [lia | by rewrite length_insert | unfold len in *; simpl; lia | | |].
    + unfold elems. rewrite Hcells. simpl.
      rewrite (take_S_r _ _ tx) by (apply list_lookup_insert_eq; lia).
      by rewrite take_insert_ge by lia.
    + destruct (decide (p_arr p = s_arr (txs c))) as [Heq|Hne].
      * apply deref_alter_insert; [done|].
        destruct (inv_ptr c Hc h p) as [_ Hlt]; [done|]. specialize (Hlt Heq). lia.
      * by apply deref_alter_ne.
    + intros Heq. by destruct (inv_ptr c Hc h p) as [_ Hlt]; [|apply Hlt].
  - (* into a new array *)
    fold (elems c). rewrite lookup_app_r, Nat.sub_diag by done. simpl.
    repeat split; [rewrite length_app; simpl; lia | unfold len in *; simpl; lia | | |].
    + rewrite <- Hlen at 1.
      change (elems c ++ tx :: ?r) with (elems c ++ [tx] ++ r).
      rewrite app_assoc. rewrite take_app_length'; [done|].
      rewrite length_app. simpl. lia.
    + apply deref_app. by destruct (inv_ptr c Hc h p).
    + intros Heq. destruct (inv_ptr c Hc h p) as [Hsome _]; [done|].
      apply deref_lt in Hsome. lia.
Qed.

(** The element [append] has added is the last of the new slice. *)
Lemma append_last c tx mem s :
  chain_inv c → append (arrays c) (txs c) tx = Some (mem, s) →
  Z.to_nat (len s - 1) = s_len (txs c) ∧
  deref mem (Ptr (s_arr s) (s_len (txs c))) = Some tx ∧
  slice_at mem s (len s - 1) = Some tx.
Proof.
  intros Hc Happ.
  destruct (append_spec c tx mem s Hc Happ)
    as (Hlen & Hcap & Hback & Hint & Helems & Hold).
  assert (Hidx : Z.to_nat (len s - 1) = s_len (txs c))
    by (unfold len; rewrite Hlen; lia).
  assert (Hnew : deref mem (Ptr (s_arr s) (s_len (txs c))) = Some tx).
  { unfold deref. simpl.
    destruct (mem !! s_arr s) as [cells|]; simpl in *; [|lia].
    rewrite <- (lookup_take_lt cells (s_len s)) by lia.
    rewrite Helems, lookup_app_r by (rewrite (elems_length c Hc); lia).
    by rewrite (elems_length c Hc), Nat.sub_diag. }
  split; [done|]. split; [done|]. unfold slice_at.
  rewrite bool_decide_true by (unfold len; lia). by rewrite Hidx.
Qed.

(** ** [AddTx] keeps the invariant *)

Lemma AddTx_panics c tx check :
  run_check check tx = None → AddTx tx check c = None.
Proof. intros Hrun. unfold AddTx. by rewrite Hrun. Qed.

Lemma AddTx_rejects c tx check tx' e :
  run_check check tx = Some (tx', Some e) → AddTx tx check c = Some (c, Some e).
Proof. intros Hrun. unfold AddTx. by rewrite Hrun. Qed.

Lemma AddTx_error c tx check c' e :
  AddTx tx check c = Some (c', Some e) →
  (∃ tx', run_check check tx = Some (tx', Some e)) ∧ c' = c.
Proof.
  unfold AddTx. destruct (run_check check tx) as [[tx' [e'|]]|]; simpl; [|  |done].
  - intros [= <- <-]. split; [by exists tx'|done].
  - intros Hadd. apply bind_Some in Hadd as ([mem s] & _ & Hadd).
    apply bind_Some in Hadd as (? & _ & Hadd). done.
Qed.

(** An admission, in terms of the transaction [tx] that the checker left
    of the argument [tx0]. *)
Lemma AddTx_admits c tx0 check c' :
  chain_inv c → AddTx tx0 check c = Some (c', None) →
  ∃ tx, run_check check tx0 = Some (tx, None) ∧
  chain_inv c' ∧
  elems c' = elems c ++ [tx] ∧
  s_len (txs c') = S (s_len (txs c)) ∧
  byHash c' = <[Hash tx := Ptr (s_arr (txs c')) (s_len (txs c))]> (byHash c) ∧
  deref (arrays c') (Ptr (s_arr (txs c')) (s_len (txs c))) = Some tx ∧
  (∀ h p, byHash c !! h = Some p →
     deref (arrays c') p = deref (arrays c) p ∧
     p ≠ Ptr (s_arr (txs c')) (s_len (txs c))).
Proof.
  intros Hc. unfold AddTx.
  destruct (run_check check tx0) as [[tx [e|]]|]; simpl; [done| |done].
  intros Hadd. exists tx.
  apply bind_Some in Hadd as ([mem s] & Happ & Hadd).
  apply bind_Some in Hadd as (tx' & _ & [= <-]). simpl.
  destruct (append_spec c tx mem s Hc Happ)
    as (Hlen & Hcap & Hback & Hint & Helems & Hold).
  destruct (append_last c tx mem s Hc Happ) as (Hidx & Hnew & _).
  rewrite Hidx.
  split; [done|]. split.
  2:{ split; [done|]. split; [done|]. split; [done|]. split; [done|].
      intros h p Hp. destruct (Hold h p Hp) as [Hsame Hlt].
      split; [done|]. intros ->. simpl in Hlt. lia. }
  constructor; simpl; try done.
  - intros h p. destruct (decide (Hash tx = h)) as [<-|Hne].
    + rewrite lookup_insert_eq. intros [= <-]. simpl. split; [by eexists|lia].
    + rewrite lookup_insert_ne by done. intros Hp.
      destruct (Hold h p Hp) as [-> Hlt]. split; [|lia].
      by destruct (inv_ptr c Hc h p).
  - intros h. unfold elems at 1. simpl. rewrite Helems, last_with_hash_snoc.
    destruct (decide (Hash tx = h)) as [<-|Hne].
    + by rewrite lookup_insert_eq.
    + rewrite lookup_insert_ne by done. rewrite <- (inv_index c Hc h).
      destruct (byHash c !! h) as [p|] eqn:Hp; [|done]. simpl.
      by destruct (Hold h p Hp) as [-> _].
Qed.

(** With a passing check, [AddTx] returns unless the slice is as long as
    an [int] allows. *)
Lemma AddTx_runs c tx0 check tx :
  chain_inv c → run_check check tx0 = Some (tx, None) → len (txs c) < max_int →
  ∃ c', AddTx tx0 check c = Some (c', None).
Proof.
  intros Hc Hcheck Hmax.
  destruct (append (arrays c) (txs c) tx) as [[mem s]|] eqn:Happ.
  - destruct (append_last c tx mem s Hc Happ) as (_ & _ & Hlast).
    unfold AddTx. rewrite Hcheck. simpl. rewrite Happ. simpl.
    rewrite Hlast. simpl. by eexists.
  - unfold append in Happ. rewrite bool_decide_false in Happ by lia.
    by case_bool_decide.
Qed.

Lemma NewMemoryChain_inv bufferSize c :
  NewMemoryChain bufferSize = Some c → chain_inv c ∧ elems c = [].
Proof.
  unfold NewMemoryChain. case_bool_decide; [done|]. intros [= <-].
  split; [|done]. by constructor.
Qed.

Lemma reachable_inv c : reachable c → chain_inv c.
Proof.
  induction 1 as [b c Hnew|c tx check c' r _ IH Hadd].
  - by apply NewMemoryChain_inv in Hnew as [? _].
  - destruct r as [e|].
    + by apply AddTx_error in Hadd as [_ ->].
    + by apply AddTx_admits in Hadd as (? & _ & ? & _).
Qed.

(** ** The read operations in terms of [elems] *)

Lemma Len_elems c : chain_inv c → Len c = Z.of_nat (length (elems c)).
Proof. intros Hc. by rewrite (Len_len c Hc), (elems_length c Hc). Qed.

Lemma index_lt c i :
  chain_inv c → 0 ≤ i < Len c →
  ∃ tx, elems c !! Z.to_nat i = Some tx ∧ index c i = Some tx.
Proof.
  intros Hc Hi. rewrite (Len_len c Hc) in Hi.
  rewrite index_elems, bool_decide_true by done.
  destruct (lookup_lt_is_Some_2 (elems c) (Z.to_nat i)) as [tx Htx].
  { rewrite (elems_length c Hc). unfold len in Hi. lia. }
  by exists tx.
Qed.

Lemma GetTxOfSeq_ge c seq :
  Len c ≤ seq → GetTxOfSeq seq c = Some (zero_tx, Some (ErrBlockOfSeq seq)).
Proof. intros Hseq. unfold GetTxOfSeq. fold (Len c). by rewrite bool_decide_true. Qed.

Lemma GetTxOfSeq_lt c seq :
  chain_inv c → 0 ≤ seq < Len c →
  ∃ tx, elems c !! Z.to_nat seq = Some tx ∧ GetTxOfSeq seq c = Some (tx, None).
Proof.
  intros Hc Hseq. destruct (index_lt c seq Hc Hseq) as (tx & Htx & Hidx).
  exists tx. split; [done|]. unfold GetTxOfSeq. fold (Len c).
  rewrite bool_decide_false by lia. by rewrite Hidx.
Qed.

Lemma GetTxOfHash_elems c h :
  chain_inv c →
  GetTxOfHash h c =
  match last_with_hash h (elems c) with
  | Some tx => Some (tx, None)
  | None => Some (zero_tx, Some (ErrTxOfHash h))
  end.
Proof.
  intros Hc. unfold GetTxOfHash. rewrite <- (inv_index c Hc h).
  destruct (byHash c !! h) as [p|] eqn:Hp; [|done]. simpl.
  destruct (inv_ptr c Hc h p Hp) as [[tx ->] _]. done.
Qed.

Lemma Head_elems c :
  chain_inv c →
  Head c =
  match last (elems c) with
  | Some tx => Some (tx, None)
  | None => Some (zero_tx, Some ErrNoTransactions)
  end.
Proof.
  intros Hc. unfold Head. pose proof (elems_length c Hc) as Hlen.
  case_bool_decide as Hz.
  - destruct (elems c); [done|]. unfold len in Hz. simpl in Hlen. lia.
  - rewrite index_elems, bool_decide_true by (unfold len in *; lia).
    rewrite last_lookup.
    replace (Z.to_nat (len (txs c) - 1)) with (pred (length (elems c)))
      by (unfold len; lia).
    destruct (lookup_lt_is_Some_2 (elems c) (pred (length (elems c)))) as [tx ->];
      [unfold len in *; lia|done].
Qed.

(** The loop, started anywhere between [startSeq] and the length with
    fuel for the sequences that remain, adds to [result] the elements from
    [currentSeq] on, as many as the page still has room for. *)
Lemma range_loop_run fuel c startSeq pageSize currentSeq result :
  chain_inv c →
  0 ≤ startSeq ≤ currentSeq → currentSeq ≤ Len c →
  (Z.to_nat (Len c - currentSeq) ≤ fuel)%nat →
  range_loop fuel c (Len c) startSeq pageSize currentSeq result =
  Some (result ++ take (Z.to_nat (pageSize - (currentSeq - startSeq)))
                       (drop (Z.to_nat currentSeq) (elems c))).
Proof.
  intros Hc. revert currentSeq result.
  pose proof (uint64_range (len (txs c))) as HL. fold (Len c) in HL.
  assert (Hstop : ∀ fuel' cur acc, 0 ≤ startSeq ≤ cur → cur ≤ Len c →
            ¬ (cur < Len c ∧ cur - startSeq < pageSize) →
            range_loop fuel' c (Len c) startSeq pageSize cur acc =
            Some (acc ++ take (Z.to_nat (pageSize - (cur - startSeq)))
                              (drop (Z.to_nat cur) (elems c)))).
  { intros fuel' cur acc Hs Hcur Hno.
    assert (take (Z.to_nat (pageSize - (cur - startSeq)))
                 (drop (Z.to_nat cur) (elems c)) = []) as ->.
    { destruct (decide (cur < Len c)).
      - replace (Z.to_nat (pageSize - (cur - startSeq))) with 0%nat by lia. done.
      - rewrite drop_ge; [by rewrite take_nil|].
        rewrite (Len_elems c Hc) in *. lia. }
    rewrite app_nil_r.
    destruct fuel'; simpl; rewrite (uint64_small (cur - startSeq)) by lia;
      repeat case_bool_decide; simpl; done || lia. }
  induction fuel as [|fuel IH]; intros cur acc Hs Hcur Hfuel.
  - apply Hstop; [done..|lia].
  - destruct (decide (cur < Len c ∧ cur - startSeq < pageSize)) as [[Hlt Hpage]|Hno];
      [|by apply Hstop].
    simpl. rewrite (uint64_small (cur - startSeq)) by lia.
    rewrite !bool_decide_true by done. simpl.
    destruct (index_lt c cur Hc) as (tx & Htx & ->); [lia|]. simpl.
    rewrite (uint64_small (cur + 1)) by lia.
    rewrite IH by lia. f_equal. rewrite <- app_assoc. f_equal. simpl.
    rewrite (drop_S _ _ _ Htx).
    replace (Z.to_nat (pageSize - (cur - startSeq)))
      with (S (Z.to_nat (pageSize - (cur + 1 - startSeq)))) by lia.
    simpl. by replace (Z.to_nat (cur + 1)) with (S (Z.to_nat cur)) by lia.
Qed.

Lemma GetTxsOfSeqRange_page c startSeq pageSize :
  chain_inv c → 0 ≤ startSeq < Len c → pageSize ≠ 0 →
  GetTxsOfSeqRange startSeq pageSize c =
  Some (take (Z.to_nat pageSize) (drop (Z.to_nat startSeq) (elems c)), None).
Proof.
  intros Hc Hs Hp. unfold GetTxsOfSeqRange.
  rewrite !bool_decide_false by lia. simpl.
  rewrite range_loop_run by (done || lia). simpl.
  by rewrite Z.sub_diag, Z.sub_0_r.
Qed.

Lemma last_with_hash_Some h l tx :
  last_with_hash h l = Some tx → Hash tx = h ∧ tx ∈ l.
Proof.
  unfold last_with_hash. intros Hlast.
  assert (tx ∈ filter (λ tx, Hash tx = h) l) as Hin.
  { apply last_Some in Hlast as [l' ->]. set_solver. }
  by apply list_elem_of_filter in Hin.
Qed.

Lemma reachable_grow c l : reachable c → reachable (grow c l).
Proof.
  revert c. induction l as [|tx l IH]; intros c Hc; [done|].
  simpl. apply IH.
  destruct (AddTx tx pass c) as [[c' r]|] eqn:Hadd; [|done].
  by eapply reach_add.
Qed.

Lemma reachable_empty bufferSize :
  0 ≤ bufferSize ≤ max_chan → reachable (empty_chain bufferSize).
Proof.
  intros Hb. apply (reach_new bufferSize). unfold NewMemoryChain.
  by rewrite bool_decide_false by lia.
Qed.

(** An admission puts the transaction, as the checker left it, after the
    elements there were and leaves them where they are. *)
Lemma AddTx_admits_seq c tx0 (check : TxChecker) c' :
  chain_inv c →
  AddTx tx0 check c = Some (c', None) →
  ∃ tx, run_check check tx0 = Some (tx, None) ∧
  Len c' = Len c + 1 ∧
  GetTxOfSeq (Len c' - 1) c' = Some (tx, None) ∧
  (∀ i, 0 ≤ i < Len c → GetTxOfSeq i c' = GetTxOfSeq i c) ∧
  elems c' = elems c ++ [tx].
Proof.
  intros Hc Hadd.
  destruct (AddTx_admits c tx0 check c' Hc Hadd) as (tx & Hrun & Hc' & Helems & _).
  exists tx. split; [done|].
  assert (HLen : Len c' = Len c + 1).
  { rewrite (Len_elems c' Hc'), (Len_elems c Hc), Helems, length_app. simpl. lia. }
  pose proof (Len_elems c Hc) as HL.
  split; [done|]. split; [|split; [|done]].
  - destruct (GetTxOfSeq_lt c' (Len c' - 1) Hc') as (tx' & Htx' & ->); [lia|].
    rewrite Helems, lookup_app_r in Htx' by lia.
    replace (Z.to_nat (Len c' - 1) - length (elems c))%nat with 0%nat in Htx' by lia.
    by injection Htx' as ->.
  - intros i Hi.
    destruct (GetTxOfSeq_lt c' i Hc') as (tx' & Htx' & ->); [lia|].
    destruct (GetTxOfSeq_lt c i Hc) as (tx1 & Htx1 & ->); [lia|].
    rewrite Helems, lookup_app_l in Htx' by lia. congruence.
Qed.

(** The two ways [GetTxsOfSeqRange] fails. *)
Lemma GetTxsOfSeqRange_error c startSeq pageSize :
  pageSize = 0 ∨ Len c ≤ startSeq →
  ∃ e, GetTxsOfSeqRange startSeq pageSize c = Some ([], Some e).
Proof.
  intros Hbad. unfold GetTxsOfSeqRange.
  case_bool_decide; [by eexists|]. simpl.
  rewrite bool_decide_true by lia. by eexists.
Qed.

(** * The claims *)

(** C1: when the check handed to [AddTx] returns an error, [AddTx] returns
    that error and the chain is as it was: [Len], [HeadSeq], [Head],
    [GetTxOfHash] at every hash, [GetTxOfSeq] at every sequence and
    [GetTxsOfSeqRange] at every pair of arguments give what they gave
    before the call, whatever the check wrote into the transaction. *)
Theorem AddTx_rejected_unchanged c tx (check : TxChecker) tx' e :
  run_check check tx = Some (tx', Some e) →
  ∃ c', AddTx tx check c = Some (c', Some e) ∧
    Len c' = Len c ∧
    HeadSeq c' = HeadSeq c ∧
    Head c' = Head c ∧
    (∀ hash, GetTxOfHash hash c' = GetTxOfHash hash c) ∧
    (∀ seq, GetTxOfSeq seq c' = GetTxOfSeq seq c) ∧
    (∀ startSeq pageSize,
       GetTxsOfSeqRange startSeq pageSize c' = GetTxsOfSeqRange startSeq pageSize c) ∧
    c' = c.
Proof.
  intros He. exists c. by rewrite (AddTx_rejects c tx check tx' e He).
Qed.

(** C2, as the code has it: [HeadSeq] is [Len() - 1] computed in [uint64]
    in every state, with no test for the empty log; on a log with
    [Len() = 0] it returns the wrapped value 2^64 - 1. *)
Theorem HeadSeq_wraps c :
  HeadSeq c = uint64 (Len c - 1) ∧
  (Len c = 0 → HeadSeq c = 2 ^ 64 - 1).
Proof.
  split; [done|]. unfold HeadSeq. fold (Len c). by intros ->.
Qed.

(** C5: in every state reached from a new chain by [AddTx] calls,
    [HeadSeq() = Len() - 1] whenever [Len() > 0], and the same holds of the
    state any further [AddTx] leaves behind (the other operations do not
    change the state). *)
Theorem HeadSeq_invariant c :
  reachable c →
  (0 < Len c → HeadSeq c = Len c - 1) ∧
  (∀ tx check c' r, AddTx tx check c = Some (c', r) →
     reachable c' ∧ (0 < Len c' → HeadSeq c' = Len c' - 1)).
Proof.
  assert (Hhead : ∀ c0 : MemoryChain, 0 < Len c0 → HeadSeq c0 = Len c0 - 1).
  { intros c0 Hpos. unfold HeadSeq. fold (Len c0).
    pose proof (uint64_range (len (txs c0))) as Hr. fold (Len c0) in Hr.
    apply uint64_small. lia. }
  intros Hc. split; [apply Hhead|].
  intros tx check c' r Hadd. split; [by eapply reach_add|apply Hhead].
Qed.

(** C6, as the code has it: on a new chain [Head] fails with the error
    "no transactions"; after one [AddTx] of [tx1] into it that returns no
    error, [Head] returns the transaction as the check left it ([tx1]
    itself when the check wrote nothing), [HeadSeq] returns 0 and [Len]
    returns 1. *)
Theorem Head_of_new_chain bufferSize c0 tx1 (check : TxChecker) tx1' :
  NewMemoryChain bufferSize = Some c0 →
  run_check check tx1 = Some (tx1', None) →
  Head c0 = Some (zero_tx, Some ErrNoTransactions) ∧
  ∃ c1, AddTx tx1 check c0 = Some (c1, None) ∧
    Head c1 = Some (tx1', None) ∧ HeadSeq c1 = 0 ∧ Len c1 = 1.
Proof.
  intros Hnew Hcheck.
  destruct (NewMemoryChain_inv _ _ Hnew) as [Hc0 Hempty].
  split; [by rewrite (Head_elems c0 Hc0), Hempty|].
  pose proof (elems_length c0 Hc0) as Hlen0. rewrite Hempty in Hlen0.
  destruct (AddTx_runs c0 tx1 check tx1' Hc0 Hcheck) as [c1 Hadd].
  { unfold len, max_int. rewrite <- Hlen0. simpl. lia. }
  exists c1. split; [done|].
  destruct (AddTx_admits c0 tx1 check c1 Hc0 Hadd) as (tx & Hrun & Hc1 & Helems & _).
  assert (tx = tx1') as -> by congruence.
  rewrite Hempty in Helems. simpl in Helems.
  assert (HLen : Len c1 = 1) by (by rewrite (Len_elems c1 Hc1), Helems).
  split; [by rewrite (Head_elems c1 Hc1), Helems|].
  split; [|done]. unfold HeadSeq. fold (Len c1). by rewrite HLen.
Qed.

(** C7: for a [uint64] [seq], [GetTxOfSeq(seq)] returns an error exactly
    when [seq >= Len()]; when [seq < Len()] it returns the transaction at
    position [seq] of the chain. *)
Theorem GetTxOfSeq_spec c seq :
  reachable c → 0 ≤ seq < 2 ^ 64 →
  ∃ tx err, GetTxOfSeq seq c = Some (tx, err) ∧
    (is_Some err ↔ Len c ≤ seq) ∧
    (seq < Len c → err = None ∧ elems c !! Z.to_nat seq = Some tx).
Proof.
  intros Hc%reachable_inv Hseq.
  destruct (decide (Len c ≤ seq)) as [Hge|Hlt].
  - exists zero_tx, (Some (ErrBlockOfSeq seq)).
    split; [by apply GetTxOfSeq_ge|]. split; [|lia]. split; [done|by eexists].
  - destruct (GetTxOfSeq_lt c seq Hc) as (tx & Htx & Hget); [lia|].
    exists tx, None. split; [done|]. split; [|done].
    split; [by intros [? ?]|lia].
Qed.

(** C8, as the code has it: after an [AddTx] that returns no error, [Len]
    is one more than before, the transaction as the check left it (the
    argument itself when the check wrote nothing) is at the last sequence,
    and [GetTxOfSeq(i)] for every [i] below the old [Len] returns what it
    returned before: the admitted entries are neither changed nor removed. *)
Theorem AddTx_appends c tx (check : TxChecker) c' :
  reachable c →
  AddTx tx check c = Some (c', None) →
  ∃ tx', run_check check tx = Some (tx', None) ∧
    Len c' = Len c + 1 ∧
    GetTxOfSeq (Len c' - 1) c' = Some (tx', None) ∧
    (∀ i, 0 ≤ i < Len c → GetTxOfSeq i c' = GetTxOfSeq i c) ∧
    elems c' = elems c ++ [tx'].
Proof.
  intros Hc%reachable_inv Hadd. by apply (AddTx_admits_seq c tx check c').
Qed.

(** C3: for [uint64] arguments [s] and [p], [GetTxsOfSeqRange(s, p)]
    returns an error exactly when [p = 0] or [s >= Len()]; otherwise it
    returns [min(p, Len() - s)] transactions, the one at place [k] of the
    result being the transaction of sequence [s + k], so fewer than [p]
    and no error when the range runs past [Len()]. *)
Theorem GetTxsOfSeqRange_spec c s p :
  reachable c → 0 ≤ s < 2 ^ 64 → 0 ≤ p < 2 ^ 64 →
  ∃ result err, GetTxsOfSeqRange s p c = Some (result, err) ∧
    (is_Some err ↔ p = 0 ∨ Len c ≤ s) ∧
    (err = None →
       Z.of_nat (length result) = Z.min p (Len c - s) ∧
       ∀ k, (k < length result)%nat →
         ∃ tx, result !! k = Some tx ∧
               GetTxOfSeq (s + Z.of_nat k) c = Some (tx, None)).
Proof.
  intros Hc%reachable_inv Hs Hp.
  destruct (decide (p = 0 ∨ Len c ≤ s)) as [Hbad|Hok].
  { destruct (GetTxsOfSeqRange_error c s p Hbad) as [e He].
    exists [], (Some e). split; [done|]. split; [|done]. split; [done|by eexists]. }
  eexists _, None. split; [apply GetTxsOfSeqRange_page; done || lia|].
  split; [split; [by intros [? ?]|lia]|]. intros _.
  pose proof (Len_elems c Hc) as HL.
  split; [rewrite length_take, length_drop; lia|].
  intros k Hk. rewrite length_take, length_drop in Hk.
  destruct (GetTxOfSeq_lt c (s + Z.of_nat k) Hc) as (tx & Htx & Hget); [lia|].
  exists tx. split; [|done].
  rewrite lookup_take_lt, lookup_drop by lia.
  by replace (Z.to_nat s + k)%nat with (Z.to_nat (s + Z.of_nat k)) by lia.
Qed.

(** C4: in every state reached by admissions and for every sequence
    [i < Len()], the hash of the transaction at [i] leads back to it:
    [GetTxOfHash(GetTxOfSeq(i).Hash())] succeeds and returns the
    transaction that [GetTxOfSeq(i)] returns.  The hash is the content
    hash of the data model, the identity of a transaction: transactions of
    the chain that have one hash are equal. *)
Theorem GetTxOfHash_roundtrip c i :
  reachable c → 0 ≤ i < Len c →
  (∀ j k tx1 tx2,
     GetTxOfSeq j c = Some (tx1, None) → GetTxOfSeq k c = Some (tx2, None) →
     Hash tx1 = Hash tx2 → tx1 = tx2) →
  ∃ tx, GetTxOfSeq i c = Some (tx, None) ∧
        GetTxOfHash (Hash tx) c = Some (tx, None).
Proof.
  intros Hc%reachable_inv Hi Hid.
  destruct (GetTxOfSeq_lt c i Hc Hi) as (tx & Htx & Hget).
  exists tx. split; [done|]. rewrite (GetTxOfHash_elems c _ Hc).
  destruct (last_with_hash (Hash tx) (elems c)) as [tx'|] eqn:Hlast.
  - apply last_with_hash_Some in Hlast as [Hh Hin].
    apply list_elem_of_lookup in Hin as [k Hk].
    destruct (GetTxOfSeq_lt c (Z.of_nat k) Hc) as (tx2 & Htx2 & Hget2).
    { rewrite (Len_elems c Hc). apply lookup_lt_Some in Hk. lia. }
    rewrite Nat2Z.id, Hk in Htx2. injection Htx2 as <-.
    by rewrite (Hid _ _ _ _ Hget2 Hget Hh).
  - unfold last_with_hash in Hlast. apply last_None in Hlast.
    assert (tx ∈ filter (λ tx0, Hash tx0 = Hash tx) (elems c)) as Hin.
    { apply list_elem_of_filter. split; [done|]. by eapply list_elem_of_lookup_2. }
    rewrite Hlast in Hin. by apply elem_of_nil in Hin.
Qed.

(** C9: a [GetTxsOfSeqRange(s, p)] that returns no error returns at least
    one transaction: then [p >= 1] and [s < Len()], and the result starts
    with the transaction of sequence [s]. *)
Theorem GetTxsOfSeqRange_nonempty c s p result :
  reachable c → 0 ≤ s < 2 ^ 64 → 0 ≤ p < 2 ^ 64 →
  GetTxsOfSeqRange s p c = Some (result, None) →
  1 ≤ p ∧ s < Len c ∧ result ≠ [] ∧
  ∃ tx, head result = Some tx ∧ GetTxOfSeq s c = Some (tx, None).
Proof.
  intros Hc%reachable_inv Hs Hp Hget.
  destruct (decide (p = 0 ∨ Len c ≤ s)) as [Hbad|Hok].
  { destruct (GetTxsOfSeqRange_error c s p Hbad) as [e He]. congruence. }
  rewrite GetTxsOfSeqRange_page in Hget by (done || lia).
  injection Hget as <-.
  destruct (GetTxOfSeq_lt c s Hc) as (tx & Htx & Hseq); [lia|].
  rewrite (drop_S _ _ _ Htx).
  replace (Z.to_nat p) with (S (Z.to_nat (p - 1))) by lia. simpl.
  split; [lia|]. split; [lia|]. split; [done|]. by exists tx.
Qed.

(** C10, as the code has it: [AddTx] has no uniqueness check of its own.
    When the transaction [tx'] that the check leaves of [tx] has the hash
    of the transaction [old] already at sequence [j] and the check returns
    no error, [tx'] is appended ([Len] grows by one, [old] stays at [j],
    [tx'] is at the new last sequence); afterwards the index holds, for
    that hash, the address of the new last element, [GetTxOfHash] of the
    hash returns [tx'], the address the index held before is under no
    hash any more, and no hash leads to [old] unless [old] and [tx'] are
    equal. *)
Theorem AddTx_same_hash c tx (check : TxChecker) tx' j old :
  reachable c → Len c < max_int →
  0 ≤ j → GetTxOfSeq j c = Some (old, None) →
  run_check check tx = Some (tx', None) → Hash tx' = Hash old →
  ∃ c', AddTx tx check c = Some (c', None) ∧
    Len c' = Len c + 1 ∧
    GetTxOfSeq j c' = Some (old, None) ∧
    GetTxOfSeq (Len c) c' = Some (tx', None) ∧
    byHash c' !! Hash tx' = Some (Ptr (s_arr (txs c')) (Z.to_nat (Len c))) ∧
    GetTxOfHash (Hash tx') c' = Some (tx', None) ∧
    (∀ p, byHash c !! Hash tx' = Some p → ∀ h, byHash c' !! h ≠ Some p) ∧
    (∀ h, GetTxOfHash h c' = Some (old, None) → old = tx').
Proof.
  intros Hreach Hmax Hj Hold Hcheck Hhash.
  pose proof (reachable_inv c Hreach) as Hc.
  destruct (AddTx_runs c tx check tx' Hc Hcheck) as [c' Hadd];
    [by rewrite <- (Len_len c Hc)|].
  exists c'. split; [done|].
  destruct (AddTx_admits_seq c tx check c' Hc Hadd)
    as (tx1 & Hrun1 & HLen & Hlast & Hkeep & Helems).
  assert (tx1 = tx') as -> by congruence.
  destruct (AddTx_admits c tx check c' Hc Hadd)
    as (tx2 & Hrun2 & Hc' & _ & _ & Hidx & Hnew & Hptrs).
  assert (tx2 = tx') as -> by congruence.
  assert (Hjlt : j < Len c).
  { destruct (decide (Len c ≤ j)) as [Hge|]; [|lia].
    rewrite (GetTxOfSeq_ge c j Hge) in Hold. done. }
  split; [done|]. split; [by rewrite Hkeep|].
  split; [by rewrite HLen, Z.add_simpl_r in Hlast|].
  assert (Hn : Z.to_nat (Len c) = s_len (txs c)).
  { rewrite (Len_len c Hc). unfold len. lia. }
  rewrite Hn.
  split; [by rewrite Hidx, lookup_insert_eq|].
  assert (Hget : ∀ h, last_with_hash h (elems c') =
                      if decide (Hash tx' = h) then Some tx'
                      else last_with_hash h (elems c)).
  { intros h. by rewrite Helems, last_with_hash_snoc. }
  split; [rewrite (GetTxOfHash_elems c' _ Hc'), Hget; by rewrite decide_True|].
  split.
  - intros p Hp h Hh. rewrite Hidx in Hh.
    destruct (Hptrs _ p Hp) as [_ Hnp].
    destruct (decide (Hash tx' = h)) as [<-|Hne].
    + rewrite lookup_insert_eq in Hh. congruence.
    + rewrite lookup_insert_ne in Hh by done.
      destruct (inv_ptr c Hc _ p Hp) as [[x Hx] _].
      pose proof (inv_index c Hc (Hash tx')) as H1. rewrite Hp in H1. simpl in H1.
      pose proof (inv_index c Hc h) as H2. rewrite Hh in H2. simpl in H2.
      rewrite Hx in H1, H2. symmetry in H1, H2.
      apply last_with_hash_Some in H1 as [H1 _].
      apply last_with_hash_Some in H2 as [H2 _]. congruence.
  - intros h Hh. rewrite (GetTxOfHash_elems c' _ Hc'), Hget in Hh.
    destruct (decide (Hash tx' = h)) as [<-|Hne]; [congruence|].
    destruct (last_with_hash h (elems c)) as [x|] eqn:Hx; [|done].
    injection Hh as ->. apply last_with_hash_Some in Hx as [Hx _]. congruence.
Qed.

(** * Further properties of the chain *)

(** ** Auxiliary facts *)

Lemma GetTxOfSeq_Some c seq tx :
  chain_inv c → GetTxOfSeq seq c = Some (tx, None) →
  0 ≤ seq < Len c ∧ elems c !! Z.to_nat seq = Some tx.
Proof.
  intros Hc. unfold GetTxOfSeq. fold (Len c). case_bool_decide as Hge; [done|].
  rewrite index_elems. case_bool_decide as Hb; [|done].
  destruct (elems c !! Z.to_nat seq) as [tx'|] eqn:Htx; simpl; [|done].
  intros [= ->]. split; [lia|done].
Qed.

Lemma GetTxOfSeq_elems c k tx :
  chain_inv c → elems c !! k = Some tx →
  GetTxOfSeq (Z.of_nat k) c = Some (tx, None).
Proof.
  intros Hc Hk.
  destruct (GetTxOfSeq_lt c (Z.of_nat k) Hc) as (tx' & Htx' & ->).
  { rewrite (Len_elems c Hc). apply lookup_lt_Some in Hk. lia. }
  rewrite Nat2Z.id in Htx'. congruence.
Qed.

(** An address in the index has the sequence number of its transaction
    for offset, and no later transaction has the hash it is filed under. *)
Lemma reachable_index_pos c :
  reachable c → ∀ h p, byHash c !! h = Some p →
    deref (arrays c) p = elems c !! p_idx p ∧
    ∀ j tx', (p_idx p < j)%nat → elems c !! j = Some tx' → Hash tx' ≠ h.
Proof.
  induction 1 as [b c Hnew|c tx check c' r Hreach IH Hadd].
  - unfold NewMemoryChain in Hnew. case_bool_decide; [done|].
    injection Hnew as <-. simpl. intros h p. by rewrite lookup_empty.
  - destruct r as [e|]; [by apply AddTx_error in Hadd as [_ ->]|].
    pose proof (reachable_inv c Hreach) as Hc.
    destruct (AddTx_admits c tx check c' Hc Hadd)
      as (tx1 & _ & Hc' & Helems & Hlen & Hidx & Hnew & Hptrs).
    clear Hadd. revert tx1 Helems Hidx Hnew. clear tx.
    intros tx Helems Hidx Hnew.
    pose proof (elems_length c Hc) as Hl.
    intros h p. rewrite Hidx, Helems.
    destruct (decide (Hash tx = h)) as [<-|Hne].
    + rewrite lookup_insert_eq. intros [= <-]. simpl. rewrite Hnew. split.
      * rewrite lookup_app_r by lia. by rewrite Hl, Nat.sub_diag.
      * intros j tx' Hj Hlook. apply lookup_lt_Some in Hlook.
        rewrite length_app in Hlook. simpl in Hlook. lia.
    + rewrite lookup_insert_ne by done. intros Hp.
      destruct (IH h p Hp) as [Hd Hlater]. destruct (Hptrs h p Hp) as [-> _].
      destruct (inv_ptr c Hc h p Hp) as [[x Hx] _].
      assert (p_idx p < length (elems c))%nat as Hlt
        by (apply lookup_lt_Some with x; congruence).
      split; [by rewrite lookup_app_l|].
      intros j tx' Hj Hlook.
      destruct (decide (j < length (elems c))%nat) as [Hjl|Hjl].
      * rewrite lookup_app_l in Hlook by done. by eapply Hlater.
      * rewrite lookup_app_r in Hlook by lia.
        destruct (j - length (elems c))%nat; simpl in Hlook; [|done].
        by injection Hlook as <-.
Qed.

Lemma last_with_hash_None h l :
  last_with_hash h l = None ↔ ∀ tx, tx ∈ l → Hash tx ≠ h.
Proof.
  unfold last_with_hash. rewrite last_None. split.
  - intros Hnil tx Hin Hh.
    assert (tx ∈ filter (λ tx0, Hash tx0 = h) l) as Hf
      by (by apply list_elem_of_filter).
    rewrite Hnil in Hf. by apply elem_of_nil in Hf.
  - intros Hno. destruct (filter (λ tx0, Hash tx0 = h) l) as [|tx l'] eqn:Hf; [done|].
    assert (tx ∈ filter (λ tx0, Hash tx0 = h) l) as Hin by (rewrite Hf; left).
    apply list_elem_of_filter in Hin as [Hh Hin]. by destruct (Hno tx Hin).
Qed.

(** ** Lookups by hash *)

(** X1: in a reachable state [GetTxOfHash(h)] never panics; it succeeds
    exactly when some sequence of the chain holds a transaction of hash
    [h], and then returns a transaction of the chain with that hash;
    otherwise it returns [Transaction{}] with the error for [h]. *)
Theorem GetTxOfHash_found_iff c h :
  reachable c →
  ∃ tx err, GetTxOfHash h c = Some (tx, err) ∧
    (err = None ↔ ∃ i tx', GetTxOfSeq i c = Some (tx', None) ∧ Hash tx' = h) ∧
    (err = None → Hash tx = h ∧ ∃ i, GetTxOfSeq i c = Some (tx, None)) ∧
    (err ≠ None → err = Some (ErrTxOfHash h) ∧ tx = zero_tx).
Proof.
  intros Hc%reachable_inv. rewrite (GetTxOfHash_elems c h Hc).
  destruct (last_with_hash h (elems c)) as [tx|] eqn:Hlast.
  - apply last_with_hash_Some in Hlast as [Hh Hin].
    apply list_elem_of_lookup in Hin as [k Hk].
    pose proof (GetTxOfSeq_elems c k tx Hc Hk) as Hget.
    exists tx, None. split; [done|]. split; [|split; [|done]].
    + split; [|done]. intros _. by exists (Z.of_nat k), tx.
    + intros _. split; [done|]. by exists (Z.of_nat k).
  - exists zero_tx, (Some (ErrTxOfHash h)). split; [done|].
    split; [|split; [done|done]]. split; [done|].
    intros (i & tx' & Hget & Hh).
    apply (GetTxOfSeq_Some c i tx' Hc) in Hget as [_ Hk].
    apply last_with_hash_None with (tx := tx') in Hlast; [done|].
    by eapply list_elem_of_lookup_2.
Qed.

(** X2: the address the index holds for a hash is the address of the
    element whose sequence number is its offset, in the array the slice
    has now or in one it had before: reading through it gives the
    transaction [GetTxOfSeq] returns for that sequence, which has the hash
    and is what [GetTxOfHash] returns; no later sequence holds a
    transaction of that hash. *)
Theorem byHash_points_at_sequence c h p :
  reachable c → byHash c !! h = Some p →
  ∃ tx, deref (arrays c) p = Some tx ∧
    Hash tx = h ∧
    GetTxOfSeq (Z.of_nat (p_idx p)) c = Some (tx, None) ∧
    GetTxOfHash h c = Some (tx, None) ∧
    (∀ j tx', Z.of_nat (p_idx p) < j → GetTxOfSeq j c = Some (tx', None) →
       Hash tx' ≠ h).
Proof.
  intros Hreach Hp. pose proof (reachable_inv c Hreach) as Hc.
  destruct (reachable_index_pos c Hreach h p Hp) as [Hd Hlater].
  destruct (inv_ptr c Hc h p Hp) as [[tx Htx] _].
  exists tx. split; [done|].
  pose proof (inv_index c Hc h) as Hidx. rewrite Hp in Hidx. simpl in Hidx.
  rewrite Htx in Hidx. symmetry in Hidx.
  split; [by apply last_with_hash_Some in Hidx as [? _]|].
  split; [apply (GetTxOfSeq_elems c _ tx Hc); congruence|].
  split; [by rewrite (GetTxOfHash_elems c h Hc), Hidx|].
  intros j tx' Hj Hget.
  apply (GetTxOfSeq_Some c j tx' Hc) in Hget as [Hr Hk].
  apply (Hlater (Z.to_nat j) tx'); [lia|done].
Qed.

(** ** The head and the new chain *)

(** X3: in a reachable state [Head] fails, with "no transactions", exactly
    on the chain of length 0; on a longer chain it returns the transaction
    that [GetTxOfSeq] returns for [HeadSeq()]. *)
Theorem Head_at_HeadSeq c :
  reachable c →
  (Len c = 0 → Head c = Some (zero_tx, Some ErrNoTransactions)) ∧
  (0 < Len c →
     ∃ tx, Head c = Some (tx, None) ∧ GetTxOfSeq (HeadSeq c) c = Some (tx, None)).
Proof.
  intros Hc%reachable_inv. rewrite (Head_elems c Hc), last_lookup.
  pose proof (Len_elems c Hc) as HL. split.
  - intros Hz. destruct (elems c); [done|]. simpl in HL. lia.
  - intros Hpos.
    destruct (lookup_lt_is_Some_2 (elems c) (pred (length (elems c)))) as [tx Htx];
      [lia|].
    exists tx. rewrite Htx. split; [done|].
    assert (HeadSeq c = Z.of_nat (pred (length (elems c)))) as ->.
    { unfold HeadSeq. fold (Len c).
      pose proof (uint64_range (len (txs c))) as Hr. fold (Len c) in Hr.
      rewrite uint64_small by lia. lia. }
    by apply GetTxOfSeq_elems.
Qed.

(** X4: [NewMemoryChain] panics for a negative buffer size; when it
    returns, the buffer size is not negative, the chain has a channel of
    that buffer size and length 0, and every lookup in it fails: of the
    head, by hash, by sequence and by range. *)
Theorem NewMemoryChain_empty bufferSize :
  (bufferSize < 0 → NewMemoryChain bufferSize = None) ∧
  ∀ c, NewMemoryChain bufferSize = Some c →
    0 ≤ bufferSize ∧ txChan c = bufferSize ∧ Len c = 0 ∧
    Head c = Some (zero_tx, Some ErrNoTransactions) ∧
    (∀ h, GetTxOfHash h c = Some (zero_tx, Some (ErrTxOfHash h))) ∧
    (∀ seq, 0 ≤ seq → GetTxOfSeq seq c = Some (zero_tx, Some (ErrBlockOfSeq seq))) ∧
    (∀ s p, 0 ≤ s → ∃ e, GetTxsOfSeqRange s p c = Some ([], Some e)).
Proof.
  unfold NewMemoryChain. case_bool_decide as Hb.
  - split; [done|]. by intros c.
  - split; [intros Hneg; destruct Hb; by left|]. intros c [= <-].
    split; [lia|]. split; [done|]. split; [done|]. split; [done|].
    split; [done|]. split.
    + intros seq Hseq. by apply GetTxOfSeq_ge.
    + intros s p Hs. apply GetTxsOfSeqRange_error. by right.
Qed.

(** ** What an admission changes *)

(** X5: after an [AddTx] that returns no error, [Head] returns the
    transaction as the check left it, [HeadSeq] is the former [Len], and
    [GetTxOfHash] of the hash of that transaction returns it. *)
Theorem AddTx_new_head c tx (check : TxChecker) c' :
  reachable c → AddTx tx check c = Some (c', None) →
  ∃ tx', run_check check tx = Some (tx', None) ∧
    Head c' = Some (tx', None) ∧
    HeadSeq c' = Len c ∧
    GetTxOfHash (Hash tx') c' = Some (tx', None).
Proof.
  intros Hc%reachable_inv Hadd.
  destruct (AddTx_admits c tx check c' Hc Hadd) as (tx' & Hrun & Hc' & Helems & _).
  exists tx'. split; [done|].
  split; [by rewrite (Head_elems c' Hc'), Helems, last_snoc|]. split.
  - unfold HeadSeq. fold (Len c').
    rewrite (Len_elems c' Hc'), (Len_elems c Hc), Helems, length_app. simpl.
    pose proof (uint64_range (len (txs c))) as Hr. fold (Len c) in Hr.
    rewrite (Len_elems c Hc) in Hr. rewrite uint64_small by lia. lia.
  - rewrite (GetTxOfHash_elems c' _ Hc'), Helems, last_with_hash_snoc.
    by rewrite decide_True.
Qed.

(** X6: an [AddTx] that returns no error leaves the lookup of every hash
    as it was, but for the hash of the transaction as the check left it,
    whether [append] wrote in place or moved the slice to a new array. *)
Theorem AddTx_other_hashes c tx (check : TxChecker) c' :
  reachable c → AddTx tx check c = Some (c', None) →
  ∃ tx', run_check check tx = Some (tx', None) ∧
    ∀ h, h ≠ Hash tx' → GetTxOfHash h c' = GetTxOfHash h c.
Proof.
  intros Hc%reachable_inv Hadd.
  destruct (AddTx_admits c tx check c' Hc Hadd) as (tx' & Hrun & Hc' & Helems & _).
  exists tx'. split; [done|]. intros h Hne.
  rewrite (GetTxOfHash_elems c' h Hc'), (GetTxOfHash_elems c h Hc).
  rewrite Helems, last_with_hash_snoc. by rewrite decide_False.
Qed.

(** X7: [AddTx] panics when the checker is nil or panics.  When the
    checker returns, on a reachable chain shorter than the longest slice,
    [AddTx] returns what the checker returned: with an error the chain is
    the same, without one it is longer by one. *)
Theorem AddTx_verdict c tx (check : TxChecker) :
  reachable c → Len c < max_int →
  (run_check check tx = None → AddTx tx check c = None) ∧
  (∀ tx' r, run_check check tx = Some (tx', r) →
     ∃ c', AddTx tx check c = Some (c', r) ∧
       (r = None → Len c' = Len c + 1) ∧
       (r ≠ None → c' = c)).
Proof.
  intros Hc%reachable_inv Hmax. split; [apply AddTx_panics|].
  intros tx' [e|] Hcheck.
  - exists c. split; [by eapply AddTx_rejects|]. by split.
  - destruct (AddTx_runs c tx check tx' Hc Hcheck) as [c' Hadd];
      [by rewrite <- (Len_len c Hc)|].
    exists c'. split; [done|]. split; [|done]. intros _.
    by destruct (AddTx_admits_seq c tx check c' Hc Hadd) as (? & _ & ? & _).
Qed.

(** ** Pages *)

(** X8: pages follow on one another, for [uint64] arguments whose sums
    [s + p] and [p + q] do not wrap.  After the page of size [p] from
    [s], the page from [s + p] continues where it ended, the two together
    being the page of size [p + q] from [s]; and when the first page has
    reached the end of the chain, the call for the next one fails with the
    error for its start sequence. *)
Theorem GetTxsOfSeqRange_next_page c s p q :
  reachable c → 0 ≤ s < Len c → 0 < p → 0 < q →
  s + p < 2 ^ 64 → p + q < 2 ^ 64 →
  ∃ r1, GetTxsOfSeqRange s p c = Some (r1, None) ∧
    (s + p < Len c →
       ∃ r2, GetTxsOfSeqRange (s + p) q c = Some (r2, None) ∧
             GetTxsOfSeqRange s (p + q) c = Some (r1 ++ r2, None)) ∧
    (Len c ≤ s + p →
       GetTxsOfSeqRange (s + p) q c = Some ([], Some (ErrInvalidStartSeq (s + p))) ∧
       GetTxsOfSeqRange s (p + q) c = Some (r1, None)).
Proof.
  intros Hc%reachable_inv Hs Hp Hq _ _.
  pose proof (Len_elems c Hc) as HL.
  eexists. split; [apply GetTxsOfSeqRange_page; done || lia|]. split.
  - intros Hmore. eexists.
    split; [apply GetTxsOfSeqRange_page; done || lia|].
    rewrite GetTxsOfSeqRange_page by (done || lia). do 2 f_equal.
    rewrite !Z2Nat.inj_add by lia.
    by rewrite <- drop_drop, take_take_drop.
  - intros Hend. split.
    + unfold GetTxsOfSeqRange. rewrite bool_decide_false by lia. simpl.
      by rewrite bool_decide_true.
    + rewrite GetTxsOfSeqRange_page by (done || lia). do 2 f_equal.
      rewrite !take_ge; [done|rewrite length_drop; lia..].
Qed.

(** ** Runs of admissions *)

Lemma AddTxs_elems c (check : TxChecker) l :
  reachable c → Len c + Z.of_nat (length l) ≤ max_int →
  (∀ tx, tx ∈ l → is_Some (run_check check tx)) →
  ∃ c', AddTxs check l c = Some c' ∧ reachable c' ∧
    elems c' = elems c ++ omap (let_through check) l.
Proof.
  revert c. induction l as [|tx l IH]; intros c Hreach Hmax Hret.
  - exists c. simpl. by rewrite app_nil_r.
  - pose proof (reachable_inv c Hreach) as Hc. simpl in Hmax.
    assert (Hret' : ∀ tx0, tx0 ∈ l → is_Some (run_check check tx0))
      by (intros tx0 Hin; apply Hret; by right).
    destruct (Hret tx) as [[tx' r] Hcheck]; [by left|].
    simpl. unfold let_through at 1. rewrite Hcheck.
    destruct r as [e|].
    + destruct (IH c Hreach) as (c' & Hrun & Hreach' & Helems); [lia|done|].
      exists c'. rewrite (AddTx_rejects c tx check tx' e Hcheck). simpl. done.
    + destruct (AddTx_runs c tx check tx' Hc Hcheck) as [c1 Hadd].
      { rewrite <- (Len_len c Hc). lia. }
      destruct (AddTx_admits_seq c tx check c1 Hc Hadd)
        as (tx1 & Hrun1 & HLen & _ & _ & Helems1).
      assert (tx1 = tx') as -> by congruence.
      destruct (IH c1) as (c' & Hrun & Hreach' & Helems);
        [by eapply reach_add|lia|done|].
      exists c'. rewrite Hadd. simpl.
      split; [done|]. split; [done|].
      by rewrite Helems, Helems1, <- app_assoc.
Qed.

(** X9: a run of [AddTx] calls with one checker that returns for every
    transaction of the run, on a reachable chain with room for them, does
    not panic; it keeps every sequence the chain had and puts after them
    what the checker let through (each transaction as the checker left
    it), in the order of the calls, and nothing of the others. *)
Theorem AddTxs_admitted c (check : TxChecker) l :
  reachable c → Len c + Z.of_nat (length l) ≤ max_int →
  (∀ tx, tx ∈ l → is_Some (run_check check tx)) →
  ∃ c', AddTxs check l c = Some c' ∧ reachable c' ∧
    Len c' = Len c + Z.of_nat (length (omap (let_through check) l)) ∧
    (∀ i, 0 ≤ i < Len c → GetTxOfSeq i c' = GetTxOfSeq i c) ∧
    (∀ k tx, omap (let_through check) l !! k = Some tx →
       GetTxOfSeq (Len c + Z.of_nat k) c' = Some (tx, None)).
Proof.
  intros Hreach Hmax Hret.
  destruct (AddTxs_elems c check l Hreach Hmax Hret) as (c' & Hrun & Hreach' & Helems).
  pose proof (reachable_inv c Hreach) as Hc.
  pose proof (reachable_inv c' Hreach') as Hc'.
  pose proof (Len_elems c Hc) as HL.
  exists c'. split; [done|]. split; [done|].
  split; [by rewrite (Len_elems c' Hc'), Helems, length_app, HL, Nat2Z.inj_add|].
  split.
  - intros i Hi.
    destruct (GetTxOfSeq_lt c i Hc Hi) as (tx & Htx & ->).
    rewrite <- (Z2Nat.id i) by lia. apply (GetTxOfSeq_elems c' _ tx Hc').
    rewrite Helems, lookup_app_l by lia. done.
  - intros k tx Hk. rewrite HL, <- Nat2Z.inj_add.
    apply (GetTxOfSeq_elems c' _ tx Hc').
    rewrite Helems, lookup_app_r by lia.
    by replace (length (elems c) + k - length (elems c))%nat with k by lia.
Qed.

End Properties.

(** * The flag names *)

Lemma chars_app s1 s2 : chars (s1 +:+ s2) = chars s1 ++ chars s2.
Proof. induction s1 as [|a s1 IH]; simpl; [done|by rewrite IH]. Qed.

Lemma chars_inj s1 s2 : chars s1 = chars s2 → s1 = s2.
Proof.
  revert s2. induction s1 as [|a s1 IH]; intros [|b s2]; simpl; try done.
  intros [= -> Hs]. by rewrite (IH s2 Hs).
Qed.

(** X11: names made by [Flag] from long names without a comma can be told
    apart: two calls give the same name only for the same long name and
    the same first short name (or no short name in both); and the short
    names after the first never matter. *)
Theorem Flag_unambiguous flag1 short1 flag2 short2 :
  ","%char ∉ chars flag1 → ","%char ∉ chars flag2 →
  (Flag flag1 short1 = Flag flag2 short2 ↔
   flag1 = flag2 ∧ head short1 = head short2) ∧
  Flag flag1 short1 = Flag flag1 (take 1 short1).
Proof.
  intros Hc1 Hc2. split; [|by destruct short1].
  split.
  - intros Heq. apply (f_equal chars) in Heq.
    destruct short1 as [|s1 r1], short2 as [|s2 r2]; simpl in *.
    + by apply chars_inj in Heq.
    + rewrite !chars_app in Heq. simpl in Heq. rewrite Heq in Hc1.
      destruct Hc1. rewrite <- app_assoc. apply elem_of_app. right. left.
    + rewrite !chars_app in Heq. simpl in Heq. rewrite <- Heq in Hc2.
      destruct Hc2. rewrite <- app_assoc. apply elem_of_app. right. left.
    + rewrite !chars_app, <- !app_assoc in Heq. simpl in Heq.
      apply not_elem_of_app_cons_inv_l in Heq as (H1 & _ & H2); [|done..].
      apply chars_inj in H1. injection H2 as H2%chars_inj. by subst.
  - intros [-> Hhead]. destruct short1, short2; simpl in *; congruence.
Qed.

(** * The claims on the two instances *)

Lemma chain5_reachable : reachable chain5.
Proof. apply reachable_grow, reachable_empty. split; by vm_compute. Qed.

Lemma chain78_reachable : reachable chain78.
Proof. apply reachable_grow, reachable_empty. split; by vm_compute. Qed.

(** The scenario of five admissions: the chain has length 5, sequence 3
    holds the transaction of kitty 3, and the page of size 2 from sequence
    2 is the transactions of sequences 2 and 3.  The index entries of the
    first four transactions point into arrays the slice has left behind. *)
Example chain5_scenario :
  Len chain5 = 5 ∧
  HeadSeq chain5 = 4 ∧
  @GetTxOfSeq content_env 3 chain5 = Some (DemoTx 3 103, None) ∧
  @GetTxsOfSeqRange content_env 2 2 chain5 = Some ([DemoTx 2 102; DemoTx 3 103], None) ∧
  @GetTxsOfSeqRange content_env 5 2 chain5 = Some ([], Some (ErrInvalidStartSeq 5)) ∧
  txs chain5 = Slice 3 5 8 ∧
  byHash chain5 !! ((0, 100) : @TxHash content_env) = Some (Ptr 0 0) ∧
  @GetTxOfHash content_env (0, 100) chain5 = Some (DemoTx 0 100, None).
Proof. repeat split; reflexivity. Qed.

(** With a hash over the kitty alone, the second transaction of kitty 7
    has taken the place of the first in the index. *)
Example chain_twice_index :
  @GetTxOfSeq kitty_env 0 chain_twice = Some (DemoTx 7 1, None) ∧
  @GetTxOfSeq kitty_env 2 chain_twice = Some (DemoTx 7 3, None) ∧
  @GetTxOfHash kitty_env 7 chain_twice = Some (DemoTx 7 3, None).
Proof. repeat split; reflexivity. Qed.

(** A nil checker, and a buffer size beyond the runtime's, are panics. *)
Example nil_checker_panics :
  @AddTx content_env (DemoTx 5 105) None chain5 = None ∧
  @NewMemoryChain content_env (2 ^ 62) = None ∧
  @NewMemoryChain content_env (-1) = None.
Proof. repeat split; reflexivity. Qed.

(** C2 as the specification has it fails on the new chain of the service:
    its [Len] is 0 and its [HeadSeq] is the wrapped value of [0 - 1]. *)
Lemma HeadSeq_empty_underflows :
  @NewMemoryChain content_env 10 = Some (empty_chain 10) ∧
  Len (@empty_chain content_env 10) = 0 ∧
  HeadSeq (@empty_chain content_env 10) = uint64 (0 - 1) ∧
  HeadSeq (@empty_chain content_env 10) = 18446744073709551615.
Proof. repeat split; reflexivity. Qed.

(** C6 as the specification has it fails for a check that writes the
    transaction it is handed: admitted into the new chain with [restamp],
    kitty 0 of serial number 100 is not what [Head] returns. *)
Lemma Head_after_writing_check :
  @NewMemoryChain content_env 10 = Some (empty_chain 10) ∧
  ∃ c1, @AddTx content_env (DemoTx 0 100) restamp (empty_chain 10) = Some (c1, None) ∧
    @Head content_env c1 = Some (DemoTx 0 999, None) ∧
    @Head content_env c1 ≠ Some (DemoTx 0 100, None).
Proof.
  split; [vm_compute; reflexivity|].
  eexists. split; [vm_compute; reflexivity|].
  split; [vm_compute; reflexivity|vm_compute; discriminate].
Qed.

(** C8 as the specification has it fails for the same check: the
    transaction at the last sequence is not the one [AddTx] was given. *)
Lemma AddTx_appends_written :
  @AddTx content_env (DemoTx 5 105) restamp chain5 = Some (chain6, None) ∧
  Len chain6 = Len chain5 + 1 ∧
  @GetTxOfSeq content_env (Len chain6 - 1) chain6 = Some (DemoTx 5 999, None) ∧
  @GetTxOfSeq content_env (Len chain6 - 1) chain6 ≠ Some (DemoTx 5 105, None).
Proof.
  repeat match goal with |- _ ∧ _ => split end;
    try (vm_compute; reflexivity); vm_compute; discriminate.
Qed.

(** C10 as the specification has it fails for a check that writes another
    kitty: the transaction given has the hash of the one at sequence 0 and
    passes the check, the chain grows, and the lookup of that hash still
    returns the earlier transaction. *)
Lemma AddTx_same_hash_written :
  @GetTxOfSeq kitty_env 0 chain78 = Some (DemoTx 7 1, None) ∧
  @Hash kitty_env (DemoTx 7 3) = @Hash kitty_env (DemoTx 7 1) ∧
  @AddTx kitty_env (DemoTx 7 3) rename_kitty chain78 = Some (chain789, None) ∧
  Len chain789 = Len chain78 + 1 ∧
  @GetTxOfHash kitty_env 7 chain789 = Some (DemoTx 7 1, None) ∧
  @GetTxOfHash kitty_env 7 chain789 ≠ Some (DemoTx 7 3, None).
Proof.
  repeat match goal with |- _ ∧ _ => split end;
    try (vm_compute; reflexivity); vm_compute; discriminate.
Qed.

Lemma AddTx_rejected_unchanged_witness :
  ∃ c', @AddTx content_env (DemoTx 5 105) reject_all chain5
        = Some (c', Some (ErrCheck "bad signature")) ∧
    Len c' = Len chain5 ∧
    HeadSeq c' = HeadSeq chain5 ∧
    Head c' = Head chain5 ∧
    (∀ hash, GetTxOfHash hash c' = GetTxOfHash hash chain5) ∧
    (∀ seq, GetTxOfSeq seq c' = GetTxOfSeq seq chain5) ∧
    (∀ startSeq pageSize,
       GetTxsOfSeqRange startSeq pageSize c' = GetTxsOfSeqRange startSeq pageSize chain5) ∧
    c' = chain5.
Proof.
  apply (@AddTx_rejected_unchanged content_env chain5 (DemoTx 5 105)
           reject_all (DemoTx 5 105) (ErrCheck "bad signature")).
  reflexivity.
Defined.

Lemma HeadSeq_wraps_witness :
  HeadSeq (@empty_chain content_env 10) = uint64 (Len (@empty_chain content_env 10) - 1) ∧
  HeadSeq (@empty_chain content_env 10) = 2 ^ 64 - 1.
Proof.
  destruct (HeadSeq_wraps (@empty_chain content_env 10)) as [Hwrap Hempty].
  split; [exact Hwrap|]. apply Hempty. reflexivity.
Defined.

Lemma GetTxsOfSeqRange_spec_witness :
  ∃ result err, GetTxsOfSeqRange 3 10 chain5 = Some (result, err) ∧
    (is_Some err ↔ 10 = 0 ∨ Len chain5 ≤ 3) ∧
    (err = None →
       Z.of_nat (length result) = Z.min 10 (Len chain5 - 3) ∧
       ∀ k, (k < length result)%nat →
         ∃ tx, result !! k = Some tx ∧
               GetTxOfSeq (3 + Z.of_nat k) chain5 = Some (tx, None)).
Proof.
  apply (@GetTxsOfSeqRange_spec content_env chain5 3 10);
    [exact chain5_reachable | lia | lia].
Defined.

Lemma content_hash_inj (tx1 tx2 : @Transaction content_env) :
  @Hash content_env tx1 = @Hash content_env tx2 → tx1 = tx2.
Proof. destruct tx1, tx2. simpl. by intros [= -> ->]. Qed.

Lemma GetTxOfHash_roundtrip_witness :
  ∃ tx, @GetTxOfSeq content_env 3 chain5 = Some (tx, None) ∧
        @GetTxOfHash content_env (@Hash content_env tx) chain5 = Some (tx, None).
Proof.
  apply (@GetTxOfHash_roundtrip content_env chain5 3);
    [exact chain5_reachable | vm_compute; split; congruence
    | intros j k tx1 tx2 _ _; apply content_hash_inj].
Defined.

Lemma HeadSeq_invariant_witness :
  (0 < Len chain5 → HeadSeq chain5 = Len chain5 - 1) ∧
  (∀ tx check c' r, @AddTx content_env tx check chain5 = Some (c', r) →
     reachable c' ∧ (0 < Len c' → HeadSeq c' = Len c' - 1)).
Proof.
  apply (@HeadSeq_invariant content_env chain5). exact chain5_reachable.
Defined.

Lemma Head_of_new_chain_witness :
  @Head content_env (empty_chain 10) = Some (DemoTx 0 0, Some ErrNoTransactions) ∧
  ∃ c1, @AddTx content_env (DemoTx 0 100) restamp (empty_chain 10) = Some (c1, None) ∧
    Head c1 = Some (DemoTx 0 999, None) ∧ HeadSeq c1 = 0 ∧ Len c1 = 1.
Proof.
  apply (@Head_of_new_chain content_env 10 (empty_chain 10) (DemoTx 0 100) restamp
           (DemoTx 0 999));
    reflexivity.
Defined.

Lemma GetTxOfSeq_spec_witness :
  ∃ tx err, @GetTxOfSeq content_env 3 chain5 = Some (tx, err) ∧
    (is_Some err ↔ Len chain5 ≤ 3) ∧
    (3 < Len chain5 → err = None ∧ elems chain5 !! Z.to_nat 3 = Some tx).
Proof.
  apply (@GetTxOfSeq_spec content_env chain5 3); [exact chain5_reachable | lia].
Defined.

Lemma AddTx_appends_witness :
  ∃ tx', @run_check content_env restamp (DemoTx 5 105) = Some (tx', None) ∧
    Len chain6 = Len chain5 + 1 ∧
    @GetTxOfSeq content_env (Len chain6 - 1) chain6 = Some (tx', None) ∧
    (∀ i, 0 ≤ i < Len chain5 →
       @GetTxOfSeq content_env i chain6 = @GetTxOfSeq content_env i chain5) ∧
    elems chain6 = elems chain5 ++ [tx'].
Proof.
  apply (@AddTx_appends content_env chain5 (DemoTx 5 105) restamp);
    [exact chain5_reachable | vm_compute; reflexivity].
Defined.

Lemma GetTxsOfSeqRange_nonempty_witness :
  1 ≤ 2 ∧ 2 < Len chain5 ∧ [DemoTx 2 102; DemoTx 3 103] ≠ [] ∧
  ∃ tx, head [DemoTx 2 102; DemoTx 3 103] = Some tx ∧
        @GetTxOfSeq content_env 2 chain5 = Some (tx, None).
Proof.
  apply (@GetTxsOfSeqRange_nonempty content_env chain5 2 2);
    [exact chain5_reachable | lia | lia | reflexivity].
Defined.

Lemma AddTx_same_hash_witness :
  let tx := DemoTx 7 3 in
  let old := DemoTx 7 1 in
  ∃ c', @AddTx kitty_env tx pass chain78 = Some (c', None) ∧
    Len c' = Len chain78 + 1 ∧
    @GetTxOfSeq kitty_env 0 c' = Some (old, None) ∧
    @GetTxOfSeq kitty_env (Len chain78) c' = Some (tx, None) ∧
    byHash c' !! (7 : @TxHash kitty_env)
      = Some (Ptr (s_arr (txs c')) (Z.to_nat (Len chain78))) ∧
    @GetTxOfHash kitty_env 7 c' = Some (tx, None) ∧
    (∀ p, byHash chain78 !! (7 : @TxHash kitty_env) = Some p →
          ∀ h, byHash c' !! h ≠ Some p) ∧
    (∀ h, @GetTxOfHash kitty_env h c' = Some (old, None) → old = tx).
Proof.
  apply (@AddTx_same_hash kitty_env chain78 (DemoTx 7 3) pass (DemoTx 7 3) 0 (DemoTx 7 1));
    [exact chain78_reachable
    | vm_compute; reflexivity | lia | reflexivity | reflexivity | reflexivity].
Defined.

(** * The further properties on the instances *)

Lemma GetTxOfHash_found_iff_witness :
  ∃ tx err, @GetTxOfHash content_env (3, 103) chain5 = Some (tx, err) ∧
    (err = None ↔ ∃ i tx', @GetTxOfSeq content_env i chain5 = Some (tx', None) ∧
                           @Hash content_env tx' = (3, 103)) ∧
    (err = None → @Hash content_env tx = (3, 103) ∧
                  ∃ i, @GetTxOfSeq content_env i chain5 = Some (tx, None)) ∧
    (err ≠ None → err = Some (@ErrTxOfHash content_env (3, 103)) ∧
                  tx = @zero_tx content_env).
Proof.
  apply (@GetTxOfHash_found_iff content_env chain5 (3, 103)).
  exact chain5_reachable.
Defined.

(** The entry of the first transaction points into the first array, which
    the slice left at the second admission. *)
Lemma byHash_points_at_sequence_witness :
  ∃ tx, deref (arrays chain5) (Ptr 0 0) = Some tx ∧
    @Hash content_env tx = (0, 100) ∧
    @GetTxOfSeq content_env (Z.of_nat 0) chain5 = Some (tx, None) ∧
    @GetTxOfHash content_env (0, 100) chain5 = Some (tx, None) ∧
    (∀ j tx', Z.of_nat 0 < j → @GetTxOfSeq content_env j chain5 = Some (tx', None) →
       @Hash content_env tx' ≠ (0, 100)).
Proof.
  apply (@byHash_points_at_sequence content_env chain5 (0, 100) (Ptr 0 0));
    [exact chain5_reachable | reflexivity].
Defined.

Lemma Head_at_HeadSeq_witness :
  (Len chain5 = 0 → @Head content_env chain5 = Some (DemoTx 0 0, Some ErrNoTransactions)) ∧
  (0 < Len chain5 →
     ∃ tx, @Head content_env chain5 = Some (tx, None) ∧
           @GetTxOfSeq content_env (HeadSeq chain5) chain5 = Some (tx, None)).
Proof.
  apply (@Head_at_HeadSeq content_env chain5). exact chain5_reachable.
Defined.

Lemma NewMemoryChain_empty_witness :
  0 ≤ 10 ∧ txChan (@empty_chain content_env 10) = 10 ∧
  Len (@empty_chain content_env 10) = 0 ∧
  @Head content_env (empty_chain 10) = Some (DemoTx 0 0, Some ErrNoTransactions) ∧
  (∀ h, @GetTxOfHash content_env h (empty_chain 10)
        = Some (DemoTx 0 0, Some (ErrTxOfHash h))) ∧
  (∀ seq, 0 ≤ seq → @GetTxOfSeq content_env seq (empty_chain 10)
                    = Some (DemoTx 0 0, Some (ErrBlockOfSeq seq))) ∧
  (∀ s p, 0 ≤ s → ∃ e, @GetTxsOfSeqRange content_env s p (empty_chain 10)
                       = Some ([], Some e)).
Proof.
  destruct (@NewMemoryChain_empty content_env 10) as [_ Hnew].
  apply Hnew. reflexivity.
Defined.

Lemma AddTx_new_head_witness :
  ∃ tx', @run_check content_env restamp (DemoTx 5 105) = Some (tx', None) ∧
    @Head content_env chain6 = Some (tx', None) ∧
    HeadSeq chain6 = Len chain5 ∧
    @GetTxOfHash content_env (@Hash content_env tx') chain6 = Some (tx', None).
Proof.
  apply (@AddTx_new_head content_env chain5 (DemoTx 5 105) restamp);
    [exact chain5_reachable | vm_compute; reflexivity].
Defined.

Lemma AddTx_other_hashes_witness :
  ∃ tx', @run_check content_env restamp (DemoTx 5 105) = Some (tx', None) ∧
    ∀ h, h ≠ @Hash content_env tx' →
      @GetTxOfHash content_env h chain6 = @GetTxOfHash content_env h chain5.
Proof.
  apply (@AddTx_other_hashes content_env chain5 (DemoTx 5 105) restamp);
    [exact chain5_reachable | vm_compute; reflexivity].
Defined.

Lemma AddTx_verdict_witness :
  (@run_check content_env restamp (DemoTx 5 105) = None →
   @AddTx content_env (DemoTx 5 105) restamp chain5 = None) ∧
  (∀ tx' r, @run_check content_env restamp (DemoTx 5 105) = Some (tx', r) →
     ∃ c', @AddTx content_env (DemoTx 5 105) restamp chain5 = Some (c', r) ∧
       (r = None → Len c' = Len chain5 + 1) ∧
       (r ≠ None → c' = chain5)).
Proof.
  apply (@AddTx_verdict content_env chain5 (DemoTx 5 105) restamp);
    [exact chain5_reachable | vm_compute; reflexivity].
Defined.

Lemma GetTxsOfSeqRange_next_page_witness :
  ∃ r1, @GetTxsOfSeqRange content_env 0 2 chain5 = Some (r1, None) ∧
    (0 + 2 < Len chain5 →
       ∃ r2, @GetTxsOfSeqRange content_env (0 + 2) 2 chain5 = Some (r2, None) ∧
             @GetTxsOfSeqRange content_env 0 (2 + 2) chain5 = Some (r1 ++ r2, None)) ∧
    (Len chain5 ≤ 0 + 2 →
       @GetTxsOfSeqRange content_env (0 + 2) 2 chain5
         = Some ([], Some (ErrInvalidStartSeq (0 + 2))) ∧
       @GetTxsOfSeqRange content_env 0 (2 + 2) chain5 = Some (r1, None)).
Proof.
  apply (@GetTxsOfSeqRange_next_page content_env chain5 0 2 2);
    [exact chain5_reachable | vm_compute; split; congruence | lia | lia | lia | lia].
Defined.

Lemma AddTxs_admitted_witness :
  let l := [DemoTx 5 105; DemoTx 6 106; DemoTx 7 107] in
  ∃ c', @AddTxs content_env no_kitty_6 l chain5 = Some c' ∧ reachable c' ∧
    Len c' = Len chain5 + Z.of_nat (length (omap (let_through no_kitty_6) l)) ∧
    (∀ i, 0 ≤ i < Len chain5 →
       @GetTxOfSeq content_env i c' = @GetTxOfSeq content_env i chain5) ∧
    (∀ k tx, omap (let_through no_kitty_6) l !! k = Some tx →
       @GetTxOfSeq content_env (Len chain5 + Z.of_nat k) c' = Some (tx, None)).
Proof.
  apply (@AddTxs_admitted content_env chain5 no_kitty_6);
    [exact chain5_reachable | vm_compute; discriminate
    | intros tx _; eexists; reflexivity].
Defined.

Lemma Flag_unambiguous_witness :
  (Flag "test" ["t"] = Flag "tls" [] ↔ "test" = "tls" ∧ head ["t"] = head []) ∧
  Flag "test" ["t"] = Flag "test" (take 1 ["t"]).
Proof.
  apply (Flag_unambiguous "test" ["t"] "tls" []);
    apply (bool_decide_unpack _); vm_compute; exact I.
Defined.
